(** * SchemaBuilder: the field tree and its JSON preview

    A shallow embedding of [src/client/components/SchemaBuilder.tsx]:
    the [SchemaField] tree, the callbacks that edit it ([FieldRow] and
    [SchemaBuilder]) and [convertFieldsToSchema], which derives the previewed
    JSON value. *)

From stdpp Require Import gmap strings list fin_maps.

Set Warnings "-register-all".
Local Open Scope string_scope.
Local Open Scope list_scope.
Local Open Scope nat_scope.

(** ** Data model *)

(** [type FieldType = "string" | "number" | "nested"]. *)
Inductive FieldType : Set :=
  | TString
  | TNumber
  | TNested.

Global Instance FieldType_eq_dec : EqDecision FieldType.
Proof. solve_decision. Defined.

(** [interface SchemaField]; the optional property [nested?] is [None] when
    it is undefined. *)
Inductive SchemaField : Type :=
  mkSchemaField {
    id : string;
    name : string;
    type : FieldType;
    enabled : bool;
    nested : option (list SchemaField)
  }.

(** The values [convertFieldsToSchema] builds: string literals and objects.
    An object is given by its own enumerable properties, which is what
    [JSON.stringify] prints and what deep equality compares. *)
Inductive JsValue : Type :=
  | JStr (s : string)
  | JObj (props : gmap string JsValue).

Abbreviation JsObject := (gmap string JsValue).

(** [result[fieldName] = value] on an object created by the literal [{}].
    Such an object inherits the accessor [__proto__] from [Object.prototype]:
    assigning under that key runs the inherited setter, which changes the
    prototype when [value] is an object and does nothing otherwise; in both
    cases no own property is created, and the prototype is not among the
    own properties. Every other key creates or overwrites an own property. *)
Definition js_assign (result : JsObject) (fieldName : string) (value : JsValue)
  : JsObject :=
  if decide (fieldName = "__proto__") then result
  else <[fieldName := value]> result.

(** ** The schema projector *)

(** The callback of [fields.forEach] in [convertFieldsToSchema], with the
    captured [result] object as explicit state. The recursive call
    [convertFieldsToSchema(field.nested)] is the inner [fold_left]. *)
Fixpoint forEach_body (result : JsObject) (field : SchemaField) {struct field}
  : JsObject :=
  if negb (enabled field) then result
  else
    let fieldName := name field in
    match type field with
    | TString =>
        js_assign result fieldName
          (JStr (if decide (fieldName = EmptyString) then EmptyString else "STRING"))
    | TNumber => js_assign result fieldName (JStr "number")
    | TNested =>
        match nested field with
        | Some children =>
            if bool_decide (0 < length children)
            then js_assign result fieldName
                   (JObj (fold_left forEach_body children ∅))
            else js_assign result fieldName (JObj ∅)
        | None => js_assign result fieldName (JObj ∅)
        end
    end.

Definition convertFieldsToSchema (fields : list SchemaField) : JsObject :=
  fold_left forEach_body fields ∅.

(** [generateSchema] applies [convertFieldsToSchema] to the component state. *)
Definition generateSchema (fields : list SchemaField) : JsValue :=
  JObj (convertFieldsToSchema fields).

(** ** JavaScript arrays written by index *)

(** A written array may have empty slots: [None] is a slot that holds no
    element. Indices are the non-negative integers that [Array.prototype.map]
    hands to its callback. *)
Abbreviation JsArray A := (list (option A)).

(** [const a2 = [...a]; a2[index] = v]: inside the bounds the slot is
    replaced, at or past the end the array grows up to [index]. *)
Definition array_set {A} (a : list A) (index : nat) (v : A) : JsArray A :=
  if decide (index < length a) then Some <$> <[index := v]> a
  else (Some <$> a) ++ replicate (index - length a) None ++ [Some v].

(** The array as a plain sequence, when no slot is empty. *)
Fixpoint dense {A} (a : JsArray A) : option (list A) :=
  match a with
  | [] => Some []
  | Some x :: a' => cons x <$> dense a'
  | None :: _ => None
  end.

(** [a.filter((_, i) => keep(i))], the index counted from [i]. *)
Fixpoint filter_index {A} (keep : nat → bool) (i : nat) (a : list A) : list A :=
  match a with
  | [] => []
  | x :: a' =>
      if keep i then x :: filter_index keep (S i) a'
      else filter_index keep (S i) a'
  end.

(** ** Identifiers *)

(** [generateId = () => Math.random().toString(36).substr(2, 9)]. The random
    draw enters as [rendering], its base-36 text (["0.i"] for the draw 0.5);
    [substr(2, 9)] keeps at most nine characters after the first two. *)
Definition generateId (rendering : string) : string := String.substring 2 9 rendering.

(** ** The editing callbacks *)

(** [Partial<SchemaField>]: every property may be missing. For [nested] a
    missing property ([None]) differs from a property that is present and
    undefined ([Some None]). *)
Record Partial : Type :=
  mkPartial {
    p_id : option string;
    p_name : option string;
    p_type : option FieldType;
    p_enabled : option bool;
    p_nested : option (option (list SchemaField))
  }.

(** [{ ...field, ...updates }]: the properties present in [updates] win. *)
Definition spread (field : SchemaField) (updates : Partial) : SchemaField :=
  mkSchemaField
    (default (id field) (p_id updates))
    (default (name field) (p_name updates))
    (default (type field) (p_type updates))
    (default (enabled field) (p_enabled updates))
    (default (nested field) (p_nested updates)).

(** The field literal of [addField] and [addNestedField]. *)
Definition newField (newId : string) : SchemaField :=
  mkSchemaField newId EmptyString TString true None.

(** [field.nested] as a condition: an array, even an empty one, counts as
    true and [undefined] as false. *)
Definition truthy {A} (value : option A) : bool :=
  match value with
  | Some _ => true
  | None => false
  end.

(** The object [{ ...field, nested: newNested }] for an array [newNested]
    that was written by index and so may have empty slots. *)
Record WrittenField : Type :=
  mkWrittenField {
    written_id : string;
    written_name : string;
    written_type : FieldType;
    written_enabled : bool;
    written_nested : JsArray SchemaField
  }.

(** The written object as a [SchemaField], when its array has no empty
    slot. *)
Definition as_field (written : WrittenField) : option SchemaField :=
  newNested ← dense (written_nested written);
  Some (mkSchemaField (written_id written) (written_name written)
          (written_type written) (written_enabled written) (Some newNested)).

Module FieldRow.

(** Each callback of a [FieldRow] is given by the field it hands to the
    [onUpdate] property. *)

Definition updateField (field : SchemaField) (updates : Partial) : SchemaField :=
  spread field updates.

(** [updateNestedField] writes [newNested[index]] on a copy of the children
    and sends the field with that array as [nested], empty slots
    included. *)
Definition updateNestedField (field : SchemaField) (index : nat)
    (updatedNestedField : SchemaField) : WrittenField :=
  let newNested :=
    array_set (default [] (nested field)) index updatedNestedField in
  mkWrittenField (id field) (name field) (type field) (enabled field) newNested.

Definition removeNestedField (field : SchemaField) (index : nat) : SchemaField :=
  let newNested :=
    filter_index (λ i, bool_decide (i ≠ index)) 0 (default [] (nested field)) in
  updateField field (mkPartial None None None None (Some (Some newNested))).

Definition addNestedField (field : SchemaField) (newId : string) : SchemaField :=
  let newNestedField := newField newId in
  let newNested := default [] (nested field) ++ [newNestedField] in
  updateField field (mkPartial None None None None (Some (Some newNested))).

(** [onValueChange] of the type selector. *)
Definition onValueChange (field : SchemaField) (value : FieldType) : SchemaField :=
  let updates := mkPartial None None (Some value) None None in
  let updates :=
    if bool_decide (value = TNested) && negb (truthy (nested field))
    then mkPartial None None (Some value) None (Some (Some []))
    else if negb (bool_decide (value = TNested))
    then mkPartial None None (Some value) None (Some None)
    else updates in
  updateField field updates.

(** The name input and the enabled switch. *)
Definition onChange (field : SchemaField) (value : string) : SchemaField :=
  updateField field (mkPartial None (Some value) None None None).

Definition onCheckedChange (field : SchemaField) (checked : bool) : SchemaField :=
  updateField field (mkPartial None None None (Some checked) None).

End FieldRow.

(** The state updates of [SchemaBuilder], as functions of the previous state. *)

Definition initialFields : list SchemaField :=
  [ mkSchemaField "1" "name" TString true None;
    mkSchemaField "2" "class" TNumber true None;
    mkSchemaField "3" "address" TNested true
      (Some [ mkSchemaField "4" "line" TNumber true None;
              mkSchemaField "5" EmptyString TString true None ]) ].

Definition addField (newId : string) (prev : list SchemaField) : list SchemaField :=
  prev ++ [newField newId].

Definition updateField (index : nat) (updatedField : SchemaField)
    (prev : list SchemaField) : JsArray SchemaField :=
  array_set prev index updatedField.

Definition removeField (index : nat) (prev : list SchemaField) : list SchemaField :=
  filter_index (λ i, bool_decide (i ≠ index)) 0 prev.

(** ** What the editor can reach *)

(** What a rendered [FieldRow] can hand to its parent: a call of [onUpdate]
    with a field, or a call of [onRemove]. *)
Inductive signal : Type :=
  | Update (updatedField : SchemaField)
  | Remove.

(** [emits ok field s]: some control inside the [FieldRow] rendered for
    [field] makes it send [s]. The rows of the children and the add button
    are rendered only when [field.type === "nested"]; a child row sends
    through [updateNestedField] and [removeNestedField] with the index it
    was rendered at. [ok] tells which results of [generateId] may occur. *)
Inductive emits (ok : string → Prop) : SchemaField → signal → Prop :=
  | emits_name field value :
      emits ok field (Update (FieldRow.onChange field value))
  | emits_type field value :
      emits ok field (Update (FieldRow.onValueChange field value))
  | emits_enabled field checked :
      emits ok field (Update (FieldRow.onCheckedChange field checked))
  | emits_remove field :
      emits ok field Remove
  | emits_add field rendering :
      type field = TNested →
      ok (generateId rendering) →
      emits ok field (Update (FieldRow.addNestedField field (generateId rendering)))
  | emits_nested_update field children index nestedField updatedField field' :
      type field = TNested →
      nested field = Some children →
      children !! index = Some nestedField →
      emits ok nestedField (Update updatedField) →
      as_field (FieldRow.updateNestedField field index updatedField) = Some field' →
      emits ok field (Update field')
  | emits_nested_remove field children index nestedField :
      type field = TNested →
      nested field = Some children →
      children !! index = Some nestedField →
      emits ok nestedField Remove →
      emits ok field (Update (FieldRow.removeNestedField field index)).

(** One state change of [SchemaBuilder]: the top-level add button, or a
    signal of the row rendered for [fields !! index]. [accept fields] tells
    which results of [generateId] may occur in state [fields]. *)
Inductive step (accept : list SchemaField → string → Prop)
  : list SchemaField → list SchemaField → Prop :=
  | step_add fields rendering :
      accept fields (generateId rendering) →
      step accept fields (addField (generateId rendering) fields)
  | step_update fields index field updatedField fields' :
      fields !! index = Some field →
      emits (accept fields) field (Update updatedField) →
      updateField index updatedField fields = Some <$> fields' →
      step accept fields fields'
  | step_remove fields index field :
      fields !! index = Some field →
      emits (accept fields) field Remove →
      step accept fields (removeField index fields).

(** Every state the editor can show, starting from the initial state. *)
Definition reachable (accept : list SchemaField → string → Prop)
  : list SchemaField → Prop :=
  rtc (step accept) initialFields.

(** [generateId] is not checked against the tree: any result may occur. *)
Definition any_id : list SchemaField → string → Prop := λ _ _, True.

(** ** Notions the properties are stated with *)

(** The value the [forEach] callback assigns for an enabled field. *)
Definition projectedValue (field : SchemaField) : JsValue :=
  match type field with
  | TString =>
      JStr (if decide (name field = EmptyString) then EmptyString else "STRING")
  | TNumber => JStr "number"
  | TNested =>
      match nested field with
      | Some children =>
          if bool_decide (0 < length children)
          then JObj (convertFieldsToSchema children)
          else JObj ∅
      | None => JObj ∅
      end
  end.

(** [nested] is defined exactly on the fields of type [nested], at every
    depth. *)
Fixpoint well_formed (field : SchemaField) : bool :=
  match nested field with
  | Some children =>
      bool_decide (type field = TNested) && forallb well_formed children
  | None => bool_decide (type field ≠ TNested)
  end.

(** The identifiers of a field and of everything below it, and of a tree. *)
Fixpoint field_ids (field : SchemaField) : list string :=
  id field ::
  match nested field with
  | Some children => flat_map field_ids children
  | None => []
  end.

Definition tree_ids (fields : list SchemaField) : list string :=
  flat_map field_ids fields.

(** Only identifiers that no field of the current tree carries occur. *)
Definition fresh_id : list SchemaField → string → Prop :=
  λ fields newId, newId ∉ tree_ids fields.

(** [ids_step ok ids ids']: wherever the identifiers [ids] occur in a list
    without duplicates that holds none of the identifiers [ok] admits,
    [ids'] can take their place. *)
Definition ids_step (ok : string → Prop) (ids ids' : list string) : Prop :=
  ∀ pre post,
    (∀ newId, ok newId → newId ∉ pre ++ ids ++ post) →
    NoDup (pre ++ ids ++ post) → NoDup (pre ++ ids' ++ post).

(** The tree with every identifier blanked. *)
Fixpoint erase_ids (field : SchemaField) : SchemaField :=
  mkSchemaField EmptyString (name field) (type field) (enabled field)
    match nested field with
    | Some children => Some (map erase_ids children)
    | None => None
    end.

(** The tree with [nested] dropped from the fields that are not of type
    [nested] and set to the empty sequence where a field of type [nested]
    lacks it. *)
Fixpoint normalise (field : SchemaField) : SchemaField :=
  mkSchemaField (id field) (name field) (type field) (enabled field)
    match type field with
    | TNested =>
        Some match nested field with
             | Some children => map normalise children
             | None => []
             end
    | _ => None
    end.

(** [without_disabled fields fields']: [fields'] is [fields] with one
    disabled field, at any depth, taken out together with its subtree. *)
Inductive without_disabled : list SchemaField → list SchemaField → Prop :=
  | without_here before field after :
      enabled field = false →
      without_disabled (before ++ field :: after) (before ++ after)
  | without_below before parent children children' after :
      nested parent = Some children →
      without_disabled children children' →
      without_disabled
        (before ++ parent :: after)
        (before ++ spread parent (mkPartial None None None None (Some (Some children')))
                :: after).

(** ** What is rendered *)

(** The controls on screen, in document order: the line of a field (name
    input, type selector and enabled switch, with the React key of the row
    and its left padding in pixels) and the add buttons. *)
Inductive Rendered : Type :=
  | RowControls (paddingLeft : nat) (key : string)
      (value : string) (selected : FieldType) (checked : bool)
  | AddItem (paddingLeft : nat).

(** The JSX of [FieldRow]: the line of the field, then, only when
    [field.type === "nested"], the rows of [field.nested] (when defined) one
    level deeper and the add button of that level. *)
Fixpoint FieldRow_render (level : nat) (field : SchemaField) {struct field}
  : list Rendered :=
  let paddingLeft := level * 20 in
  RowControls paddingLeft (id field) (name field) (type field) (enabled field) ::
  if bool_decide (type field = TNested)
  then match nested field with
       | Some children => flat_map (FieldRow_render (level + 1)) children
       | None => []
       end ++ [AddItem ((level + 1) * 20)]
  else [].

(** The left panel of [SchemaBuilder]: a row per field at level 0 (the
    default of [level]), then the top-level add button, which has no padding
    of its own. *)
Definition SchemaBuilder_render (fields : list SchemaField) : list Rendered :=
  flat_map (FieldRow_render 0) fields ++ [AddItem 0].

(** The keys and the paddings of the field lines among rendered controls. *)
Definition row_keys (rendered : list Rendered) : list string :=
  omap (λ r, match r with RowControls _ key _ _ _ => Some key | AddItem _ => None end)
       rendered.

Definition row_paddings (rendered : list Rendered) : list nat :=
  omap (λ r, match r with RowControls p _ _ _ _ => Some p | AddItem _ => None end)
       rendered.

(** The nesting depth of a field and of everything below it, in the order
    of [field_ids]. *)
Fixpoint field_depths (depth : nat) (field : SchemaField) {struct field}
  : list nat :=
  depth ::
  match nested field with
  | Some children => flat_map (field_depths (depth + 1)) children
  | None => []
  end.

(** ** Sample fields and trees *)

(** The trees of Examples 1 to 4. *)
Definition example1 : list SchemaField :=
  [ mkSchemaField "1" "name" TString true None;
    mkSchemaField "2" "class" TNumber true None ].

Definition address_field : SchemaField :=
  mkSchemaField "3" "address" TNested true
    (Some [ mkSchemaField "4" "line" TNumber true None;
            mkSchemaField "5" EmptyString TString true None ]).

Definition example2 : list SchemaField := [address_field].

Definition example3 : list SchemaField :=
  [ mkSchemaField "1" "name" TString true None;
    mkSchemaField "2" "class" TNumber false None ].

Definition example4 : list SchemaField :=
  [ mkSchemaField "3" "address" TNested true (Some []) ].

(** Fields named [__proto__], one of each type. *)
Definition proto_number : SchemaField :=
  mkSchemaField "6" "__proto__" TNumber true None.

Definition proto_string : SchemaField :=
  mkSchemaField "6" "__proto__" TString true None.

Definition proto_nested : SchemaField :=
  mkSchemaField "6" "__proto__" TNested true
    (Some [mkSchemaField "7" "line" TNumber true None]).


Definition string_leaf : SchemaField :=
  mkSchemaField "1" "name" TString true None.

Definition unnamed_string : SchemaField :=
  mkSchemaField "5" EmptyString TString true None.

(** A disabled field with a subtree, below an enabled field of type nested,
    and the same tree without it. *)
Definition zip_field : SchemaField :=
  mkSchemaField "5" "zip" TString true None.

Definition disabled_line : SchemaField :=
  mkSchemaField "4" "line" TNumber false
    (Some [mkSchemaField "8" "deep" TString true None]).

Definition nested_disabled : list SchemaField :=
  [ string_leaf;
    mkSchemaField "3" "address" TNested true (Some [disabled_line; zip_field]) ].

Definition nested_pruned : list SchemaField :=
  [ string_leaf;
    mkSchemaField "3" "address" TNested true (Some [zip_field]) ].

(** A tree where [nested] does not match the type. *)
Definition ill_formed : list SchemaField :=
  [ mkSchemaField "1" "a" TNested true None;
    mkSchemaField "2" "b" TNumber true
      (Some [mkSchemaField "3" "c" TString true None]) ].

(** * Properties *)

(** ** Induction over a field and its subtree *)

Lemma SchemaField_tree_ind (P : SchemaField → Prop) :
  (∀ field,
      (∀ children, nested field = Some children → Forall P children) →
      P field) →
  ∀ field, P field.
Proof.
  intros step_case. fix IH 1. intros [i n t e ns].
  apply step_case. simpl. destruct ns as [cs|]; intros children Heq; [|discriminate].
  injection Heq as <-. revert cs. fix IHcs 1. intros [|c cs].
  - constructor.
  - constructor; [apply IH | apply IHcs].
Qed.

(** ** The projector, one field at a time *)

Section Projector.

Implicit Types (result : JsObject) (field : SchemaField) (key : string).
Implicit Types (fields before after : list SchemaField).

Lemma forEach_body_unfold result field :
  forEach_body result field =
  if enabled field
  then js_assign result (name field) (projectedValue field)
  else result.
Proof.
  destruct field as [i n t e ns]. unfold projectedValue, convertFieldsToSchema.
  destruct e, t; simpl; try reflexivity.
  destruct ns as [cs|]; [|reflexivity]. by case_bool_decide.
Qed.

Lemma js_assign_lookup result fieldName value key :
  js_assign result fieldName value !! key =
  if decide (fieldName ≠ "__proto__" ∧ fieldName = key)
  then Some value else result !! key.
Proof.
  unfold js_assign. case_decide as Hproto.
  - case_decide as H; [by destruct H|done].
  - case_decide as H.
    + destruct H as [_ <-]. apply lookup_insert_eq.
    + apply lookup_insert_ne. intros ->. by apply H.
Qed.

Lemma js_assign_lookup_eq result fieldName value :
  fieldName ≠ "__proto__" →
  js_assign result fieldName value !! fieldName = Some value.
Proof. intros. rewrite js_assign_lookup. by rewrite decide_True. Qed.

Lemma js_assign_lookup_ne result fieldName value key :
  fieldName ≠ key →
  js_assign result fieldName value !! key = result !! key.
Proof.
  intros Hne. rewrite js_assign_lookup.
  rewrite decide_False; [done|]. by intros [_ ?].
Qed.

Lemma js_assign_proto result value :
  js_assign result "__proto__" value = result.
Proof. reflexivity. Qed.

Lemma convert_cons field fields result :
  fold_left forEach_body (field :: fields) result =
  fold_left forEach_body fields (forEach_body result field).
Proof. reflexivity. Qed.

(** Fields that are disabled or carry another name leave [key] alone. *)
Lemma fold_lookup_others key fields result :
  Forall (λ field, enabled field = true → name field ≠ key) fields →
  fold_left forEach_body fields result !! key = result !! key.
Proof.
  intros Hall. revert result.
  induction Hall as [|field fields Hfield _ IH]; intros result; [done|].
  rewrite convert_cons, IH, forEach_body_unfold.
  destruct (enabled field); [|done].
  apply js_assign_lookup_ne. by apply Hfield.
Qed.

(** No field ever creates the own property [__proto__]. *)
Lemma fold_lookup_proto fields result :
  fold_left forEach_body fields result !! "__proto__" = result !! "__proto__".
Proof.
  revert result. induction fields as [|field fields IH]; intros result; [done|].
  rewrite convert_cons, IH, forEach_body_unfold.
  destruct (enabled field); [|done].
  rewrite js_assign_lookup.
  rewrite decide_False; [done|]. by intros [? ?].
Qed.

(** The value under a name is that of the last enabled field carrying it. *)
Lemma last_write_wins before field after :
  enabled field = true →
  name field ≠ "__proto__" →
  Forall (λ later, enabled later = true → name later ≠ name field) after →
  convertFieldsToSchema (before ++ field :: after) !! name field
  = Some (projectedValue field).
Proof.
  intros Hen Hproto Hafter. unfold convertFieldsToSchema.
  rewrite fold_left_app, convert_cons. rewrite fold_lookup_others; [|done].
  rewrite forEach_body_unfold, Hen. by apply js_assign_lookup_eq.
Qed.

(** A key is absent exactly when no enabled field carries it. *)
Lemma fold_lookup_is_Some key fields result :
  is_Some (result !! key) →
  is_Some (fold_left forEach_body fields result !! key).
Proof.
  revert result. induction fields as [|field fields IH]; intros result Hsome; [done|].
  rewrite convert_cons. apply IH. rewrite forEach_body_unfold.
  destruct (enabled field); [|done].
  rewrite js_assign_lookup. case_decide; [by eexists|done].
Qed.

Lemma convert_lookup_None key fields :
  key ≠ "__proto__" →
  convertFieldsToSchema fields !! key = None ↔
  Forall (λ field, enabled field = true → name field ≠ key) fields.
Proof.
  intros Hproto. split.
  - unfold convertFieldsToSchema. generalize (∅ : JsObject).
    induction fields as [|field fields IH]; intros result Hnone; [constructor|].
    rewrite convert_cons in Hnone. constructor; [|by eapply IH].
    intros Hen <-.
    assert (is_Some (fold_left forEach_body fields (forEach_body result field)
                       !! name field)) as [v Hv]; [|congruence].
    apply fold_lookup_is_Some. rewrite forEach_body_unfold, Hen.
    rewrite js_assign_lookup_eq by done. by eexists.
  - intros Hall. unfold convertFieldsToSchema.
    rewrite fold_lookup_others; done.
Qed.

End Projector.

(** ** Fields that the projector cannot tell apart *)

Section Insensitive.

Implicit Types (result : JsObject) (field : SchemaField).

(** The value of a field of type [nested] is the projection of its
    children, an absent sequence counting as empty. *)
Lemma projectedValue_nested field :
  type field = TNested →
  projectedValue field = JObj (convertFieldsToSchema (default [] (nested field))).
Proof.
  intros Hty. unfold projectedValue. rewrite Hty.
  destruct (nested field) as [[|c cs]|]; simpl; try done.
Qed.

Lemma fold_left_map_ext (g : SchemaField → SchemaField) children :
  Forall (λ c, ∀ result, forEach_body result (g c) = forEach_body result c) children →
  ∀ result,
    fold_left forEach_body (map g children) result
    = fold_left forEach_body children result.
Proof.
  induction 1 as [|c cs Hc _ IH]; intros result; [done|].
  simpl. by rewrite Hc, IH.
Qed.

(** Shared by [erase_ids] and [normalise]: a rewritten field projects as
    the field itself once its rewritten children do. *)
Local Ltac projects_alike field IH :=
  rewrite !forEach_body_unfold;
  destruct field as [i n t e ns]; simpl in *;
  destruct e; [|done]; f_equal;
  destruct t; try done;
  rewrite !projectedValue_nested by done; simpl;
  destruct ns as [cs|]; [|done]; simpl;
  unfold convertFieldsToSchema;
  by rewrite fold_left_map_ext; [|apply IH].

Lemma forEach_body_erase_ids field :
  ∀ result, forEach_body result (erase_ids field) = forEach_body result field.
Proof.
  induction field as [field IH] using SchemaField_tree_ind. intros result.
  projects_alike field IH.
Qed.

Lemma convert_erase_ids fields :
  convertFieldsToSchema (map erase_ids fields) = convertFieldsToSchema fields.
Proof.
  unfold convertFieldsToSchema. apply fold_left_map_ext.
  apply Forall_forall. intros field _. apply forEach_body_erase_ids.
Qed.

Lemma forEach_body_normalise field :
  ∀ result, forEach_body result (normalise field) = forEach_body result field.
Proof.
  induction field as [field IH] using SchemaField_tree_ind. intros result.
  projects_alike field IH.
Qed.

Lemma well_formed_unfold field :
  well_formed field =
  match nested field with
  | Some children =>
      bool_decide (type field = TNested) && forallb well_formed children
  | None => bool_decide (type field ≠ TNested)
  end.
Proof. by destruct field. Qed.

Lemma well_formed_spec field :
  well_formed field ↔
  (is_Some (nested field) ↔ type field = TNested) ∧
  (∀ children, nested field = Some children →
               Forall (λ c, well_formed c) children).
Proof.
  rewrite well_formed_unfold. destruct (nested field) as [cs|].
  - rewrite andb_True, bool_decide_spec, forallb_True. split.
    + intros [Hty Hcs]. split; [by split; eauto|]. by intros ? [= <-].
    + intros [Hty Hcs]. split; [apply Hty; eauto|by apply Hcs].
  - rewrite bool_decide_spec. split.
    + intros Hty. split; [|done]. split; [by intros [? ?]|done].
    + intros [Hty _] Heq. apply Hty in Heq. by destruct Heq.
Qed.

Lemma well_formed_normalise field : well_formed (normalise field).
Proof.
  induction field as [field IH] using SchemaField_tree_ind.
  apply well_formed_spec. destruct field as [i n t e ns]; simpl in *.
  destruct t; simpl.
  - split; [split; [by intros [? ?]|done]|done].
  - split; [split; [by intros [? ?]|done]|done].
  - split; [split; eauto|]. intros children [= <-].
    destruct ns as [cs|]; [|constructor].
    apply Forall_fmap. eapply Forall_impl; [by apply IH|]. done.
Qed.

End Insensitive.

(** ** Disabled fields *)

Lemma forEach_body_disabled (result : JsObject) (field : SchemaField) :
  enabled field = false → forEach_body result field = result.
Proof. intros Hen. by rewrite forEach_body_unfold, Hen. Qed.

Lemma fold_without_disabled (fields fields' : list SchemaField) :
  without_disabled fields fields' →
  ∀ result : JsObject,
    fold_left forEach_body fields result = fold_left forEach_body fields' result.
Proof.
  induction 1 as [before field after Hen
                 |before parent children children' after Hnested _ IH];
    intros result; rewrite !fold_left_app, !convert_cons.
  - by rewrite forEach_body_disabled.
  - f_equal. rewrite !forEach_body_unfold.
    destruct parent as [i n t e ns]; simpl in *. subst ns.
    destruct e; [|done]. f_equal.
    destruct t; try done.
    rewrite !projectedValue_nested by done. simpl.
    unfold convertFieldsToSchema. by rewrite IH.
Qed.

(** ** What each kind of field leaves under its name *)

Section Kinds.

Implicit Types (result : JsObject) (field : SchemaField).

Lemma number_projects field result :
  enabled field = true → type field = TNumber →
  name field ≠ "__proto__" →
  forEach_body result field !! name field = Some (JStr "number").
Proof.
  intros Hen Hty Hproto. rewrite forEach_body_unfold, Hen.
  rewrite js_assign_lookup_eq by done. unfold projectedValue. by rewrite Hty.
Qed.

Lemma string_projects field result :
  enabled field = true → type field = TString →
  name field ≠ "__proto__" →
  forEach_body result field !! name field
  = Some (JStr (if decide (name field = EmptyString) then EmptyString else "STRING")).
Proof.
  intros Hen Hty Hproto. rewrite forEach_body_unfold, Hen.
  rewrite js_assign_lookup_eq by done. unfold projectedValue. by rewrite Hty.
Qed.

Lemma nested_projects field result :
  enabled field = true → type field = TNested →
  name field ≠ "__proto__" →
  forEach_body result field !! name field
  = Some (JObj (convertFieldsToSchema (default [] (nested field)))).
Proof.
  intros Hen Hty Hproto. rewrite forEach_body_unfold, Hen.
  rewrite js_assign_lookup_eq by done. by rewrite projectedValue_nested.
Qed.

Lemma example1_projection :
  convertFieldsToSchema example1
  = {[ "name" := JStr "STRING"; "class" := JStr "number" ]}.
Proof. apply map_eq. intros key. vm_compute. reflexivity. Qed.

End Kinds.

(** C2. Example 1 projects to the mapping of ["name"] to ["STRING"] and of
    ["class"] to ["number"]. An enabled number field named [__proto__],
    however, leaves the mapping as it was: it yields no entry, so a number
    field does not project to ["number"] whatever its name. *)
Theorem number_field_named_proto_vanishes :
  convertFieldsToSchema example1
  = {[ "name" := JStr "STRING"; "class" := JStr "number" ]} ∧
  enabled proto_number = true ∧ type proto_number = TNumber ∧
  (∀ result : JsObject, forEach_body result proto_number = result) ∧
  convertFieldsToSchema [proto_number] = ∅ ∧
  convertFieldsToSchema (example1 ++ [proto_number]) !! name proto_number = None.
Proof.
  split; [exact example1_projection|]. repeat split.
Qed.

(** C3. An enabled string field with the empty name projects to the empty
    string under the empty key. An enabled string field with the non-empty
    name [__proto__] leaves the mapping as it was, instead of holding
    ["STRING"] under its name. *)
Theorem string_field_named_proto_vanishes :
  convertFieldsToSchema [unnamed_string] = {[ EmptyString := JStr EmptyString ]} ∧
  enabled proto_string = true ∧ type proto_string = TString ∧
  name proto_string ≠ EmptyString ∧
  (∀ result : JsObject, forEach_body result proto_string = result) ∧
  convertFieldsToSchema [proto_string] = ∅ ∧
  convertFieldsToSchema (example1 ++ [proto_string]) !! name proto_string = None.
Proof.
  repeat split. discriminate.
Qed.

(** C4. Example 2 projects to the mapping of ["address"] to the projection
    of its two children, and a field of type nested with empty children to
    the empty mapping. An enabled nested field named [__proto__] with a
    child leaves the mapping as it was, instead of holding the projection
    of its children. *)
Theorem nested_field_named_proto_vanishes :
  convertFieldsToSchema example2
  = {[ "address" :=
         JObj {[ "line" := JStr "number"; EmptyString := JStr EmptyString ]} ]} ∧
  convertFieldsToSchema example4 = {[ "address" := JObj ∅ ]} ∧
  enabled proto_nested = true ∧ type proto_nested = TNested ∧
  projectedValue proto_nested = JObj {[ "line" := JStr "number" ]} ∧
  (∀ result : JsObject, forEach_body result proto_nested = result) ∧
  convertFieldsToSchema [proto_nested] = ∅ ∧
  convertFieldsToSchema (example2 ++ [proto_nested]) !! name proto_nested = None.
Proof.
  repeat split.
Qed.

(** C7. Two enabled siblings that share the name [__proto__] leave no entry
    for that name, instead of exactly one entry that holds the value of the
    later one. *)
Theorem siblings_named_proto_leave_no_entry :
  enabled proto_string = true ∧ enabled proto_number = true ∧
  name proto_string = name proto_number ∧
  convertFieldsToSchema [proto_string; proto_number] !! name proto_number = None ∧
  convertFieldsToSchema [proto_string; proto_number] = ∅.
Proof. repeat split. Qed.

(** C5. A disabled field contributes nothing, at every depth: the callback
    returns the mapping as it received it; the tree projects as the tree
    with that field and its subtree taken out; its name is no key of the
    mapping when no enabled sibling carries that name; and Example 1 with
    ["class"] disabled projects to the mapping of ["name"] to ["STRING"]
    alone. *)
Theorem disabled_contributes_nothing :
  (∀ (field : SchemaField) (result : JsObject),
      enabled field = false → forEach_body result field = result) ∧
  (∀ fields fields',
      without_disabled fields fields' →
      convertFieldsToSchema fields = convertFieldsToSchema fields') ∧
  (∀ before field after,
      enabled field = false →
      Forall (λ other, enabled other = true → name other ≠ name field)
             (before ++ after) →
      convertFieldsToSchema (before ++ field :: after) !! name field = None) ∧
  convertFieldsToSchema example3 = {[ "name" := JStr "STRING" ]}.
Proof.
  split; [|split; [|split]].
  - intros field result. apply forEach_body_disabled.
  - intros fields fields' Hwithout. by apply fold_without_disabled.
  - intros before field after Hen Hothers.
    unfold convertFieldsToSchema.
    rewrite (fold_without_disabled _ (before ++ after)) by by constructor.
    by rewrite fold_lookup_others.
  - reflexivity.
Qed.

Lemma disabled_contributes_nothing_witness :
  convertFieldsToSchema nested_disabled = convertFieldsToSchema nested_pruned.
Proof.
  apply (proj1 (proj2 disabled_contributes_nothing)).
  apply (without_below
           [string_leaf]
           (mkSchemaField "3" "address" TNested true (Some [disabled_line; zip_field]))
           [disabled_line; zip_field] [zip_field] []).
  - reflexivity.
  - apply (without_here [] disabled_line [zip_field]). reflexivity.
Defined.

(** C9. The projector always returns a mapping, and the mapping is a
    function of the tree alone: two trees that are equal, or that differ
    only in their identifiers, project to equal mappings. *)
Theorem projection_deterministic (fields1 fields2 : list SchemaField) :
  map erase_ids fields1 = map erase_ids fields2 →
  ∃ schema : JsObject,
    generateSchema fields1 = JObj schema ∧ generateSchema fields2 = JObj schema.
Proof.
  intros Hsame. exists (convertFieldsToSchema fields1). split; [done|].
  unfold generateSchema. f_equal.
  by rewrite <- (convert_erase_ids fields2), <- Hsame, convert_erase_ids.
Qed.

Lemma projection_deterministic_witness :
  ∃ schema : JsObject,
    generateSchema initialFields = JObj schema ∧
    generateSchema
      [ mkSchemaField "a" "name" TString true None;
        mkSchemaField "b" "class" TNumber true None;
        mkSchemaField "c" "address" TNested true
          (Some [ mkSchemaField "d" "line" TNumber true None;
                  mkSchemaField "e" EmptyString TString true None ]) ]
    = JObj schema.
Proof. apply projection_deterministic. reflexivity. Defined.


(** X19. The projector reads [nested] only on fields of type nested and
    takes an absent [nested] there as empty: every tree projects as its
    normalised counterpart, in which [nested] is defined exactly on the
    fields of type nested; for an enabled nested field without [nested]
    the callback makes the assignment of the empty mapping under the name,
    as for one with an empty [nested]; and [nested] on a string or number
    field changes nothing. *)
Theorem projection_ignores_ill_formedness (fields : list SchemaField) :
  (∃ schema : JsObject,
      generateSchema fields = JObj schema ∧
      schema = convertFieldsToSchema (map normalise fields)) ∧
  Forall (λ field, well_formed field) (map normalise fields) ∧
  (∀ (field : SchemaField) (result : JsObject),
      enabled field = true → type field = TNested → nested field = None →
      forEach_body result field = js_assign result (name field) (JObj ∅) ∧
      forEach_body result field
      = forEach_body result
          (spread field (mkPartial None None None None (Some (Some []))))) ∧
  (∀ (field : SchemaField) (result : JsObject),
      type field ≠ TNested →
      forEach_body result field
      = forEach_body result
          (spread field (mkPartial None None None None (Some None)))).
Proof.
  split; [|split; [|split]].
  - eexists. split; [reflexivity|].
    unfold convertFieldsToSchema. symmetry. apply fold_left_map_ext.
    apply Forall_forall. intros field _. apply forEach_body_normalise.
  - apply Forall_fmap, Forall_forall. intros field _. apply well_formed_normalise.
  - intros [i n t e ns] result. simpl. intros -> -> ->. done.
  - intros field result Hty. rewrite !forEach_body_unfold.
    destruct field as [i n t e ns]; simpl in *. destruct e; [|done].
    by destruct t.
Qed.

Lemma projection_ignores_ill_formedness_witness :
  generateSchema ill_formed
  = JObj {[ "a" := JObj ∅; "b" := JStr "number" ]} ∧
  forEach_body ∅ (mkSchemaField "1" "a" TNested true None)
  = js_assign ∅ "a" (JObj ∅).
Proof.
  split.
  - destruct (proj1 (projection_ignores_ill_formedness ill_formed)) as [schema [-> ->]].
    reflexivity.
  - apply (proj1 (proj2 (proj2 (projection_ignores_ill_formedness ill_formed)))
             (mkSchemaField "1" "a" TNested true None) ∅ eq_refl eq_refl eq_refl).
Defined.

(** ** Arrays written and filtered by index *)

Section Arrays.

Context {A : Type}.
Implicit Types (a : list A) (v : A) (index i : nat).

Lemma dense_fmap_Some a : dense (Some <$> a) = Some a.
Proof. induction a as [|x a IH]; csimpl; [done|]. by rewrite IH. Qed.

Lemma fmap_Some_eq a1 a2 : Some <$> a1 = Some <$> a2 → a1 = a2.
Proof.
  intros Heq. apply (f_equal dense) in Heq.
  rewrite !dense_fmap_Some in Heq. congruence.
Qed.

Lemma array_set_lt a index v :
  index < length a → array_set a index v = Some <$> <[index := v]> a.
Proof. intros. unfold array_set. by rewrite decide_True. Qed.

Lemma array_set_ge a index v :
  length a ≤ index →
  array_set a index v
  = (Some <$> a) ++ replicate (index - length a) None ++ [Some v].
Proof. intros. unfold array_set. rewrite decide_False; [done|lia]. Qed.

Lemma array_set_length a index v :
  length (array_set a index v) = length a `max` S index.
Proof.
  unfold array_set. case_decide.
  - rewrite length_fmap, length_insert. lia.
  - rewrite !length_app, length_fmap, length_replicate. simpl. lia.
Qed.

(** Writing at the end appends; writing further leaves empty slots. *)
Lemma dense_array_set_end a v :
  dense (array_set a (length a) v) = Some (a ++ [v]).
Proof.
  rewrite array_set_ge, Nat.sub_diag by done.
  change (replicate 0 None ++ [Some v]) with (Some <$> [v]).
  rewrite <- fmap_app. apply dense_fmap_Some.
Qed.

Lemma dense_app_None (a1 a2 : JsArray A) : dense (a1 ++ None :: a2) = None.
Proof.
  induction a1 as [|[x|] a1 IH]; simpl; [done| |done]. by rewrite IH.
Qed.

Lemma dense_array_set_beyond a index v :
  length a < index → dense (array_set a index v) = None.
Proof.
  intros Hlt. rewrite array_set_ge by lia.
  destruct (index - length a) as [|n] eqn:Hn; [lia|]. simpl.
  apply dense_app_None.
Qed.

Lemma filter_index_all index i a :
  index < i → filter_index (λ j, bool_decide (j ≠ index)) i a = a.
Proof.
  revert i. induction a as [|x a IH]; intros i Hlt; simpl; [done|].
  rewrite bool_decide_eq_true_2 by lia. f_equal. apply IH. lia.
Qed.

Lemma filter_index_delete index i a :
  i ≤ index →
  filter_index (λ j, bool_decide (j ≠ index)) i a = delete (index - i) a.
Proof.
  revert i. induction a as [|x a IH]; intros i Hle; simpl; [done|].
  destruct (decide (i = index)) as [->|Hne].
  - rewrite bool_decide_eq_false_2 by naive_solver.
    rewrite Nat.sub_diag. simpl. apply filter_index_all. lia.
  - rewrite bool_decide_eq_true_2 by done.
    replace (index - i) with (S (index - S i)) by lia. simpl.
    f_equal. apply IH. lia.
Qed.

Lemma filter_index_out_of_range index i a :
  i + length a ≤ index →
  filter_index (λ j, bool_decide (j ≠ index)) i a = a.
Proof.
  revert i. induction a as [|x a IH]; intros i Hle; simpl in *; [done|].
  rewrite bool_decide_eq_true_2 by lia. f_equal. apply IH. lia.
Qed.

End Arrays.

Lemma removeField_delete (index : nat) (prev : list SchemaField) :
  removeField index prev = delete index prev.
Proof.
  unfold removeField. rewrite filter_index_delete by lia. by rewrite Nat.sub_0_r.
Qed.

Lemma updateNestedField_lt (field : SchemaField) children (index : nat) updated :
  nested field = Some children → index < length children →
  as_field (FieldRow.updateNestedField field index updated)
  = Some (spread field
            (mkPartial None None None None
               (Some (Some (<[index := updated]> children))))).
Proof.
  intros Hnested Hlt. unfold as_field, FieldRow.updateNestedField.
  rewrite Hnested. simpl.
  rewrite array_set_lt, dense_fmap_Some by done. done.
Qed.

Lemma removeNestedField_delete (field : SchemaField) (index : nat) :
  FieldRow.removeNestedField field index
  = spread field
      (mkPartial None None None None
         (Some (Some (delete index (default [] (nested field)))))).
Proof.
  unfold FieldRow.removeNestedField, FieldRow.updateField.
  rewrite filter_index_delete by lia. by rewrite Nat.sub_0_r.
Qed.

(** C1, as the code has it. No operation fails and none reports an invalid
    path. With an index at or past the end of the sequence, [removeField]
    and [removeNestedField] leave the sequence as it is; [updateField] and
    [updateNestedField] store the field at that index, which lengthens the
    sequence: the field is appended when the index is the length, and
    empty slots lie in between when it is larger. [addField] and
    [addNestedField] append the new field, the latter to the children of a
    field of any type, an absent sequence counting as empty. *)
Theorem out_of_range_is_not_rejected
    (prev : list SchemaField) (field updatedField : SchemaField)
    (index : nat) (newId : string) :
  length prev ≤ index →
  length (default [] (nested field)) ≤ index →
  removeField index prev = prev ∧
  updateField index updatedField prev
  = (Some <$> prev) ++ replicate (index - length prev) None ++ [Some updatedField] ∧
  length (updateField index updatedField prev) = S index ∧
  dense (updateField (length prev) updatedField prev) = Some (prev ++ [updatedField]) ∧
  nested (FieldRow.removeNestedField field index)
  = Some (default [] (nested field)) ∧
  written_nested (FieldRow.updateNestedField field index updatedField)
  = (Some <$> default [] (nested field))
      ++ replicate (index - length (default [] (nested field))) None
      ++ [Some updatedField] ∧
  length (written_nested (FieldRow.updateNestedField field index updatedField))
  = S index ∧
  as_field
    (FieldRow.updateNestedField field (length (default [] (nested field)))
       updatedField)
  = Some (spread field
            (mkPartial None None None None
               (Some (Some (default [] (nested field) ++ [updatedField]))))) ∧
  addField newId prev = prev ++ [newField newId] ∧
  nested (FieldRow.addNestedField field newId)
  = Some (default [] (nested field) ++ [newField newId]).
Proof.
  intros Hprev Hnested. repeat split.
  - unfold removeField. apply filter_index_out_of_range. simpl. lia.
  - unfold updateField. by apply array_set_ge.
  - unfold updateField. rewrite array_set_length. lia.
  - unfold updateField. apply dense_array_set_end.
  - unfold FieldRow.removeNestedField. simpl. f_equal.
    apply filter_index_out_of_range. simpl. lia.
  - unfold FieldRow.updateNestedField. simpl. by apply array_set_ge.
  - unfold FieldRow.updateNestedField. simpl. rewrite array_set_length. lia.
  - unfold as_field, FieldRow.updateNestedField. simpl.
    by rewrite dense_array_set_end.
Qed.

Lemma out_of_range_is_not_rejected_witness :
  removeField 5 example1 = example1 ∧
  updateField 5 (newField "x") example1
  = (Some <$> example1) ++ replicate 3 None ++ [Some (newField "x")] ∧
  written_nested (FieldRow.updateNestedField address_field 5 (newField "x"))
  = (Some <$> default [] (nested address_field))
      ++ replicate 3 None ++ [Some (newField "x")].
Proof.
  destruct (out_of_range_is_not_rejected example1 address_field (newField "x") 5 "y")
    as (Hremove & Hupdate & _ & _ & _ & Hnested & _).
  - simpl. lia.
  - simpl. lia.
  - split; [exact Hremove|]. split; [exact Hupdate|exact Hnested].
Defined.

(** C1 as stated fails: writing past the end of Example 1 is neither
    rejected nor without effect, it returns a longer sequence; and adding a
    child to a field that is not of type nested is applied. *)
Lemma out_of_range_update_is_applied :
  example1 !! 2 = None ∧
  updateField 2 (newField "x") example1 ≠ Some <$> example1 ∧
  dense (updateField 2 (newField "x") example1) = Some (example1 ++ [newField "x"]) ∧
  type string_leaf ≠ TNested ∧
  FieldRow.addNestedField string_leaf "x" ≠ string_leaf.
Proof. repeat split; discriminate. Qed.

(** ** The editor keeps [nested] in step with the type *)

Section WellFormed.

Implicit Types (field : SchemaField) (fields : list SchemaField).

Lemma well_formed_newField newId : well_formed (newField newId).
Proof. done. Qed.

Lemma onValueChange_away field value :
  value ≠ TNested →
  type (FieldRow.onValueChange field value) = value ∧
  nested (FieldRow.onValueChange field value) = None.
Proof. intros Hne. unfold FieldRow.onValueChange. by destruct value. Qed.

Lemma onValueChange_nested field :
  type (FieldRow.onValueChange field TNested) = TNested ∧
  nested (FieldRow.onValueChange field TNested)
  = Some (default [] (nested field)).
Proof.
  unfold FieldRow.onValueChange. rewrite bool_decide_eq_true_2 by done.
  by destruct (nested field) eqn:Hnested.
Qed.

Lemma onValueChange_id field value :
  id (FieldRow.onValueChange field value) = id field.
Proof.
  unfold FieldRow.onValueChange.
  destruct (bool_decide _ && _); [done|]. by destruct (negb _).
Qed.

Lemma well_formed_onValueChange field value :
  well_formed field → well_formed (FieldRow.onValueChange field value).
Proof.
  rewrite !well_formed_spec. intros [Hiff Hchildren].
  destruct (decide (value = TNested)) as [->|Hne].
  - destruct (onValueChange_nested field) as [-> ->].
    split; [split; eauto|]. intros children [= <-].
    destruct (nested field) as [cs|]; [by apply Hchildren|constructor].
  - destruct (onValueChange_away field value Hne) as [-> ->].
    split; [|done]. split; [by intros [? ?]|done].
Qed.

Lemma emits_well_formed ok field s :
  emits ok field s →
  ∀ field', s = Update field' → well_formed field → well_formed field'.
Proof.
  induction 1 as [field value|field value|field checked|field
                 |field rendering Hty Hok
                 |field children index child updated parent' Hty Hnested Hlookup _ IH Hwrite
                 |field children index child Hty Hnested Hlookup _ _];
    intros field' Heq Hwf; try discriminate; injection Heq as <-.
  - revert Hwf. by rewrite !well_formed_unfold.
  - by apply well_formed_onValueChange.
  - revert Hwf. by rewrite !well_formed_unfold.
  - apply well_formed_spec in Hwf as [_ Hchildren]. apply well_formed_spec.
    simpl. split; [split; eauto|]. intros children [= <-].
    apply Forall_app. split; [|by repeat constructor].
    destruct (nested field) as [cs|]; [by apply Hchildren|constructor].
  - apply well_formed_spec in Hwf as [_ Hchildren].
    rewrite (updateNestedField_lt _ children) in Hwrite
      by eauto using lookup_lt_Some.
    injection Hwrite as <-. apply well_formed_spec.
    simpl. split; [split; eauto|]. intros ? [= <-].
    apply Forall_insert; [by apply Hchildren|].
    apply (IH updated eq_refl).
    specialize (Hchildren _ Hnested).
    by eapply (Forall_lookup_1 _ _ _ _ Hchildren).
  - apply well_formed_spec in Hwf as [_ Hchildren].
    rewrite removeNestedField_delete, Hnested. apply well_formed_spec.
    simpl. split; [split; eauto|]. intros ? [= <-].
    by apply Forall_delete, Hchildren.
Qed.

Lemma step_well_formed accept fields fields' :
  step accept fields fields' →
  Forall (λ field, well_formed field) fields →
  Forall (λ field, well_formed field) fields'.
Proof.
  intros [fs rendering _
         |fs index field updated fs' Hlookup Hemits Hwrite
         |fs index field Hlookup _] Hwf.
  - apply Forall_app. split; [done|]. by repeat constructor.
  - unfold updateField in Hwrite.
    rewrite array_set_lt in Hwrite by eauto using lookup_lt_Some.
    apply fmap_Some_eq in Hwrite as <-.
    apply Forall_insert; [done|].
    eapply (emits_well_formed _ _ _ Hemits); [done|].
    by eapply (Forall_lookup_1 _ _ _ _ Hwf).
  - rewrite removeField_delete. by apply Forall_delete.
Qed.

Lemma reachable_well_formed accept fields :
  reachable accept fields → Forall (λ field, well_formed field) fields.
Proof.
  unfold reachable. revert fields. apply rtc_ind_r.
  - by repeat constructor.
  - intros fs fs' _ Hstep IH. by eapply step_well_formed.
Qed.

End WellFormed.

(** C6. Selecting a type other than nested clears [nested]; selecting
    nested on a field without [nested] sets it to the empty sequence; so
    leaving nested and coming back yields the empty sequence, not the old
    children; and in every tree the editor can reach, [nested] is defined
    exactly on the fields of type nested, at every depth. *)
Theorem type_switch_keeps_nested_in_step :
  (∀ field value,
      value ≠ TNested →
      type (FieldRow.onValueChange field value) = value ∧
      nested (FieldRow.onValueChange field value) = None) ∧
  (∀ field,
      nested field = None →
      type (FieldRow.onValueChange field TNested) = TNested ∧
      nested (FieldRow.onValueChange field TNested) = Some []) ∧
  (∀ field value,
      value ≠ TNested →
      nested (FieldRow.onValueChange (FieldRow.onValueChange field value) TNested)
      = Some []) ∧
  (∀ fields,
      reachable any_id fields →
      Forall (λ field,
                well_formed field ∧
                (is_Some (nested field) ↔ type field = TNested)) fields).
Proof.
  split; [|split; [|split]].
  - apply onValueChange_away.
  - intros field Hnone. destruct (onValueChange_nested field) as [-> ->].
    by rewrite Hnone.
  - intros field value Hne.
    destruct (onValueChange_nested (FieldRow.onValueChange field value)) as [_ ->].
    by destruct (onValueChange_away field value Hne) as [_ ->].
  - intros fields Hreach. apply reachable_well_formed in Hreach.
    eapply Forall_impl; [exact Hreach|]. intros field Hwf. split; [done|].
    by apply well_formed_spec in Hwf as [Hiff _].
Qed.

Lemma type_switch_keeps_nested_in_step_witness :
  nested (FieldRow.onValueChange (FieldRow.onValueChange address_field TString) TNested)
  = Some [] ∧
  Forall (λ field,
            well_formed field ∧ (is_Some (nested field) ↔ type field = TNested))
         (<[2 := FieldRow.onValueChange address_field TString]> initialFields).
Proof.
  destruct type_switch_keeps_nested_in_step as (_ & _ & Hback & Hreach).
  split.
  - apply Hback. discriminate.
  - apply Hreach. apply rtc_once.
    apply (step_update any_id initialFields 2 address_field
             (FieldRow.onValueChange address_field TString)).
    + reflexivity.
    + apply emits_type.
    + reflexivity.
Defined.

(** ** Identifiers along the edits *)

Section Identifiers.

Implicit Types (field : SchemaField) (fields : list SchemaField).
Implicit Types (ids pre post : list string).

Lemma field_ids_unfold field :
  field_ids field
  = id field :: flat_map field_ids (default [] (nested field)).
Proof. by destruct field as [i n t e [cs|]]. Qed.

Lemma ids_step_sublist ok ids (ids' : list string) :
  ids' `sublist_of` ids → ids_step ok ids ids'.
Proof.
  intros Hsub pre post _ Hnodup. eapply sublist_NoDup; [exact Hnodup|].
  by repeat apply sublist_app.
Qed.

Lemma ids_step_snoc (ok : string → Prop) ids newId :
  ok newId → ids_step ok ids (ids ++ [newId]).
Proof.
  intros Hok pre post Hfresh Hnodup.
  assert (pre ++ (ids ++ [newId]) ++ post ≡ₚ newId :: pre ++ ids ++ post) as ->.
  { rewrite <- (assoc_L (++) ids), (assoc_L (++) pre). simpl.
    by rewrite <- Permutation_middle, <- (assoc_L (++) pre). }
  apply NoDup_cons. split; [by apply Hfresh|done].
Qed.

Lemma ids_step_context ok ids (ids' before after : list string) :
  ids_step ok ids ids' →
  ids_step ok (before ++ ids ++ after) (before ++ ids' ++ after).
Proof.
  intros Hstep pre post Hfresh Hnodup.
  specialize (Hstep (pre ++ before) (after ++ post)).
  rewrite <- !(assoc_L (++)) in *. by apply Hstep.
Qed.

Lemma flat_map_sublist {A B} (f : A → list B) (l k : list A) :
  l `sublist_of` k → flat_map f l `sublist_of` flat_map f k.
Proof.
  induction 1 as [|x l k _ IH|x l k _ IH]; simpl.
  - constructor.
  - by apply sublist_app.
  - by apply sublist_inserts_l.
Qed.

(** The identifiers around position [index] do not depend on what stands
    there. *)
Lemma flat_map_insert {A B} (f : A → list B) (l : list A) index x y :
  l !! index = Some x →
  flat_map f l
  = flat_map f (take index l) ++ f x ++ flat_map f (drop (S index) l) ∧
  flat_map f (<[index := y]> l)
  = flat_map f (take index l) ++ f y ++ flat_map f (drop (S index) l).
Proof.
  intros Hlookup. split.
  - rewrite <- (take_drop_middle l index x) at 1 by done.
    by rewrite flat_map_app.
  - rewrite insert_take_drop by eauto using lookup_lt_Some.
    by rewrite flat_map_app.
Qed.

Lemma emits_ids ok field s :
  emits ok field s →
  ∀ field', s = Update field' →
            ids_step ok (field_ids field) (field_ids field').
Proof.
  induction 1 as [field value|field value|field checked|field
                 |field rendering Hty Hok
                 |field children index child updated parent' Hty Hnested Hlookup _ IH Hwrite
                 |field children index child Hty Hnested Hlookup _ _];
    intros field' Heq; try discriminate; injection Heq as <-.
  - apply ids_step_sublist. rewrite !field_ids_unfold. simpl. reflexivity.
  - apply ids_step_sublist. rewrite !field_ids_unfold, onValueChange_id.
    destruct (decide (value = TNested)) as [->|Hne].
    + destruct (onValueChange_nested field) as [_ ->]. simpl.
      destruct (nested field); reflexivity.
    + destruct (onValueChange_away field value Hne) as [_ ->]. simpl.
      apply sublist_skip, sublist_nil_l.
  - apply ids_step_sublist. rewrite !field_ids_unfold. simpl. reflexivity.
  - rewrite (field_ids_unfold (FieldRow.addNestedField _ _)). simpl.
    rewrite flat_map_app. simpl.
    rewrite app_comm_cons, <- field_ids_unfold. by apply ids_step_snoc.
  - rewrite (updateNestedField_lt _ children) in Hwrite
      by eauto using lookup_lt_Some.
    injection Hwrite as <-. rewrite !field_ids_unfold, Hnested. simpl.
    destruct (flat_map_insert field_ids children index child updated Hlookup)
      as [-> ->].
    rewrite !app_comm_cons. by apply ids_step_context, IH.
  - apply ids_step_sublist.
    rewrite removeNestedField_delete, !field_ids_unfold, Hnested. simpl.
    apply sublist_skip, flat_map_sublist, sublist_delete.
Qed.

Lemma step_fresh_NoDup fields fields' :
  step fresh_id fields fields' →
  NoDup (tree_ids fields) → NoDup (tree_ids fields').
Proof.
  intros [fs rendering Hfresh
         |fs index field updated fs' Hlookup Hemits Hwrite
         |fs index field Hlookup _] Hnodup; unfold tree_ids in *.
  - unfold addField. rewrite flat_map_app. simpl.
    apply NoDup_app. split; [done|]. split; [|by apply NoDup_singleton].
    intros newId Hin ->%list_elem_of_singleton. by apply Hfresh.
  - unfold updateField in Hwrite.
    rewrite array_set_lt in Hwrite by eauto using lookup_lt_Some.
    apply fmap_Some_eq in Hwrite as <-.
    destruct (flat_map_insert field_ids fs index field updated Hlookup)
      as [Hold ->].
    pose proof (emits_ids _ _ _ Hemits updated eq_refl) as Hstep.
    apply (Hstep (flat_map field_ids (take index fs))
                 (flat_map field_ids (drop (S index) fs))).
    + intros newId. unfold fresh_id, tree_ids. by rewrite Hold.
    + by rewrite <- Hold.
  - rewrite removeField_delete.
    eapply sublist_NoDup; [done|]. apply flat_map_sublist, sublist_delete.
Qed.

Lemma reachable_fresh_NoDup fields :
  reachable fresh_id fields → NoDup (tree_ids fields).
Proof.
  unfold reachable. revert fields. apply rtc_ind_r.
  - apply (bool_decide_unpack _). by vm_compute.
  - intros fs fs' _ Hstep IH. by eapply step_fresh_NoDup.
Qed.

End Identifiers.

(** C8, as the code has it. Identifiers are drawn at random and never
    compared with those in the tree; as long as every drawn identifier
    differs from all identifiers the tree holds at that moment, the
    identifiers of every tree the editor reaches are pairwise distinct. *)
Theorem ids_distinct_while_draws_are_fresh (fields : list SchemaField) :
  reachable fresh_id fields → NoDup (tree_ids fields).
Proof. apply reachable_fresh_NoDup. Qed.

Lemma ids_distinct_while_draws_are_fresh_witness :
  NoDup (tree_ids (addField (generateId "0.i") initialFields)).
Proof.
  apply ids_distinct_while_draws_are_fresh.
  apply rtc_once. apply step_add.
  unfold fresh_id. apply (bool_decide_unpack _). by vm_compute.
Defined.

(** C8 as stated fails: when two draws give the same number, here 0.5 whose
    base-36 text is ["0.i"], the two new fields carry the same identifier. *)
Lemma ids_can_collide :
  ¬ (∀ fields, reachable any_id fields → NoDup (tree_ids fields)).
Proof.
  intros Hdistinct.
  specialize (Hdistinct
    (addField (generateId "0.i") (addField (generateId "0.i") initialFields))).
  assert (reachable any_id
    (addField (generateId "0.i") (addField (generateId "0.i") initialFields)))
    as Hreach.
  { eapply rtc_l; [by apply (step_add any_id initialFields "0.i")|].
    apply rtc_once. by apply step_add. }
  apply Hdistinct in Hreach. apply (bool_decide_pack _) in Hreach.
  by vm_compute in Hreach.
Qed.

(** * Further properties of the projector *)

Section ProjectorAlgebra.

Implicit Types (result : JsObject) (field : SchemaField) (key : string).
Implicit Types (fields before after : list SchemaField).

(** A field touches no key but its own name. *)
Lemma forEach_body_lookup_other result field key :
  name field ≠ key → forEach_body result field !! key = result !! key.
Proof.
  intros Hne. rewrite forEach_body_unfold.
  destruct (enabled field); [|done]. by apply js_assign_lookup_ne.
Qed.

(** What a field leaves under a key does not depend on the keys around. *)
Lemma forEach_body_lookup_congr result1 result2 field key :
  result1 !! key = result2 !! key →
  forEach_body result1 field !! key = forEach_body result2 field !! key.
Proof.
  intros Heq. rewrite !forEach_body_unfold.
  destruct (enabled field); [|done].
  rewrite !js_assign_lookup. by case_decide.
Qed.

Lemma fold_lookup_congr fields result1 result2 key :
  result1 !! key = result2 !! key →
  fold_left forEach_body fields result1 !! key
  = fold_left forEach_body fields result2 !! key.
Proof.
  revert result1 result2.
  induction fields as [|field fields IH]; intros result1 result2 Heq; [done|].
  rewrite !convert_cons. by apply IH, forEach_body_lookup_congr.
Qed.

(** Taking out or exchanging a field is invisible under every other key. *)
Lemma fold_lookup_skip before field after result key :
  name field ≠ key →
  fold_left forEach_body (before ++ field :: after) result !! key
  = fold_left forEach_body (before ++ after) result !! key.
Proof.
  intros Hne. rewrite !fold_left_app, convert_cons.
  by apply fold_lookup_congr, forEach_body_lookup_other.
Qed.

Lemma forEach_body_union result field :
  forEach_body result field = forEach_body ∅ field ∪ result.
Proof.
  rewrite !forEach_body_unfold. destruct (enabled field).
  - unfold js_assign. case_decide.
    + by rewrite (left_id_L ∅ (∪)).
    + by rewrite insert_union_singleton_l, insert_empty.
  - by rewrite (left_id_L ∅ (∪)).
Qed.

Lemma fold_union fields result :
  fold_left forEach_body fields result
  = fold_left forEach_body fields ∅ ∪ result.
Proof.
  revert result. induction fields as [|field fields IH]; intros result.
  - simpl. by rewrite (left_id_L ∅ (∪)).
  - rewrite !convert_cons, (IH (forEach_body result field)),
      (IH (forEach_body ∅ field)), (forEach_body_union result).
    by rewrite (assoc_L (∪)).
Qed.

End ProjectorAlgebra.

(** X1. The keys of the projection are exactly the names of the enabled
    fields, the name [__proto__] excepted. *)
Theorem projection_keys (fields : list SchemaField) (key : string) :
  is_Some (convertFieldsToSchema fields !! key) ↔
  key ≠ "__proto__" ∧
  ∃ field, field ∈ fields ∧ enabled field = true ∧ name field = key.
Proof.
  destruct (decide (key = "__proto__")) as [->|Hproto].
  - unfold convertFieldsToSchema. rewrite fold_lookup_proto, lookup_empty.
    split; [by intros [? ?]|by intros [? _]].
  - split.
    + intros Hsome. split; [done|].
      destruct (decide (Exists (λ field, enabled field = true ∧ name field = key)
                               fields)) as [Hex|Hnone].
      * apply Exists_exists in Hex as (field & Hin & Hen & Hname). eauto.
      * exfalso. apply (is_Some_None (A := JsValue)).
        rewrite <- (proj2 (convert_lookup_None key fields Hproto)); [done|].
        apply Forall_forall. intros field Hin Hen Hname.
        apply Hnone, Exists_exists. eauto.
    + intros (_ & field & Hin & Hen & Hname).
      destruct (convertFieldsToSchema fields !! key) eqn:Hlookup; [eauto|].
      apply (convert_lookup_None key fields Hproto) in Hlookup.
      rewrite Forall_forall in Hlookup. by destruct (Hlookup field Hin Hen).
Qed.

(** X2. Projecting a sequence in two parts and merging gives the projection
    of the whole, with the entries of the later part taking precedence. *)
Theorem projection_of_concatenation (fields1 fields2 : list SchemaField) :
  convertFieldsToSchema (fields1 ++ fields2)
  = convertFieldsToSchema fields2 ∪ convertFieldsToSchema fields1.
Proof.
  unfold convertFieldsToSchema. rewrite fold_left_app. apply fold_union.
Qed.

(** X3. Under a name other than [__proto__], the projection holds what the
    last enabled field of that name gives: ["number"] for a number field,
    ["STRING"] or, for the empty name, the empty string for a string field,
    and the projection of the children (absent children counting as none)
    for a nested field. *)
Theorem entry_of_last_enabled_field
    (before after : list SchemaField) (field : SchemaField) :
  enabled field = true →
  name field ≠ "__proto__" →
  Forall (λ later, enabled later = true → name later ≠ name field) after →
  convertFieldsToSchema (before ++ field :: after) !! name field
  = Some match type field with
         | TString =>
             JStr (if decide (name field = EmptyString)
                   then EmptyString else "STRING")
         | TNumber => JStr "number"
         | TNested =>
             JObj (convertFieldsToSchema (default [] (nested field)))
         end.
Proof.
  intros Hen Hproto Hafter. rewrite last_write_wins by done. f_equal.
  destruct (type field) eqn:Hty.
  - unfold projectedValue. by rewrite Hty.
  - unfold projectedValue. by rewrite Hty.
  - by apply projectedValue_nested.
Qed.

Lemma entry_of_last_enabled_field_witness :
  convertFieldsToSchema
    ([string_leaf; mkSchemaField "9" "zip" TNested true None]
       ++ zip_field :: [disabled_line])
  !! "zip" = Some (JStr "STRING").
Proof.
  apply (entry_of_last_enabled_field
           [string_leaf; mkSchemaField "9" "zip" TNested true None]
           [disabled_line] zip_field).
  - reflexivity.
  - discriminate.
  - repeat constructor. discriminate.
Defined.

(** * Further properties of the edits *)

Section ArrayWrites.

Context {A : Type}.
Implicit Types (a : list A) (v : A) (index j : nat).

(** Slot by slot: the written slot holds [v], the old slots keep their
    element, the slots between the old end and [index] are empty. *)
Lemma array_set_lookup a index v j :
  array_set a index v !! j =
  if decide (j = index) then Some (Some v)
  else if decide (j < length a) then Some (a !! j)
  else if decide (j < index) then Some None
  else None.
Proof.
  unfold array_set. destruct (decide (index < length a)) as [Hin|Hout].
  - rewrite list_lookup_fmap, list_lookup_insert.
    destruct (decide (j = index)) as [->|Hne].
    + by rewrite decide_True.
    + rewrite decide_False by (by intros [<- _]).
      destruct (decide (j < length a)) as [Hj|Hj].
      * by destruct (lookup_lt_is_Some_2 a j Hj) as [x ->].
      * rewrite lookup_ge_None_2 by lia. simpl.
        by rewrite decide_False by lia.
  - destruct (decide (j = index)) as [->|Hne].
    + rewrite lookup_app_r by (rewrite length_fmap; lia).
      rewrite lookup_app_r by (rewrite length_fmap, length_replicate; lia).
      rewrite length_fmap, length_replicate.
      by replace (index - length a - (index - length a)) with 0 by lia.
    + destruct (decide (j < length a)) as [Hj|Hj].
      * rewrite lookup_app_l by (by rewrite length_fmap).
        rewrite list_lookup_fmap.
        by destruct (lookup_lt_is_Some_2 a j Hj) as [x ->].
      * rewrite lookup_app_r by (rewrite length_fmap; lia).
        rewrite length_fmap.
        destruct (decide (j < index)) as [Hlt|Hge].
        -- rewrite lookup_app_l by (rewrite length_replicate; lia).
           rewrite lookup_replicate_2 by lia. done.
        -- rewrite lookup_app_r by (rewrite length_replicate; lia).
           rewrite length_replicate. apply lookup_ge_None_2. simpl. lia.
Qed.

End ArrayWrites.

(** X4. [removeField] drops the field at [index] and nothing else: the
    fields before it stay where they are, the fields after it move up by
    one, and an index past the end drops nothing. *)
Theorem removeField_shifts (index : nat) (prev : list SchemaField) (j : nat) :
  removeField index prev !! j = prev !! (if decide (j < index) then j else S j) ∧
  length (removeField index prev)
  = if decide (index < length prev) then length prev - 1 else length prev.
Proof.
  rewrite removeField_delete. split; [apply list_lookup_delete|].
  case_decide as Hin.
  - apply length_delete. by apply lookup_lt_is_Some_2.
  - rewrite <- removeField_delete.
    unfold removeField. rewrite filter_index_out_of_range; [done|]. simpl. lia.
Qed.

(** X5. [updateField] writes one slot: slot [index] holds the given field,
    every field of the previous state stays in its slot, and the slots
    between the old end and [index] hold nothing. Writing back the field
    that stands at [index] returns the previous state. *)
Theorem updateField_writes_one_slot
    (index : nat) (updatedField : SchemaField) (prev : list SchemaField) :
  (∀ j,
      updateField index updatedField prev !! j =
      if decide (j = index) then Some (Some updatedField)
      else if decide (j < length prev) then Some (prev !! j)
      else if decide (j < index) then Some None
      else None) ∧
  (prev !! index = Some updatedField →
   updateField index updatedField prev = Some <$> prev).
Proof.
  split; [intros j; apply array_set_lookup|].
  intros Hlookup. unfold updateField.
  rewrite array_set_lt by eauto using lookup_lt_Some.
  by rewrite list_insert_id.
Qed.

Lemma updateField_writes_one_slot_witness :
  updateField 1 (mkSchemaField "2" "class" TNumber true None) example1
  = Some <$> example1.
Proof.
  apply (proj2 (updateField_writes_one_slot 1 _ example1)). reflexivity.
Defined.

(** X6. A later edit of a position overrides an earlier one: removing the
    field just added gives back the previous state, removing a field just
    updated is removing it, and of two updates of a field the second
    alone counts. *)
Theorem later_edit_overrides
    (prev updated : list SchemaField) (index : nat)
    (first second : SchemaField) (newId : string) :
  index < length prev →
  updateField index first prev = Some <$> updated →
  removeField (length prev) (addField newId prev) = prev ∧
  removeField index updated = removeField index prev ∧
  updateField index second updated = updateField index second prev.
Proof.
  intros Hin Hwrite. unfold updateField in *.
  rewrite array_set_lt in Hwrite by done. apply fmap_Some_eq in Hwrite as <-.
  split; [|split].
  - rewrite removeField_delete. unfold addField.
    rewrite (delete_middle prev []). apply app_nil_r.
  - rewrite !removeField_delete, !delete_take_drop.
    rewrite take_insert_ge by lia. by rewrite drop_insert_lt by lia.
  - rewrite !array_set_lt by (rewrite ?length_insert; done).
    by rewrite list_insert_insert_eq.
Qed.

Lemma later_edit_overrides_witness :
  removeField 2 (addField "x" example1) = example1 ∧
  removeField 1 (<[1 := string_leaf]> example1) = removeField 1 example1 ∧
  updateField 1 zip_field (<[1 := string_leaf]> example1)
  = updateField 1 zip_field example1.
Proof.
  apply (later_edit_overrides example1 (<[1 := string_leaf]> example1)
           1 string_leaf zip_field "x").
  - simpl. lia.
  - reflexivity.
Defined.

(** X7. Edits of two different positions can be made in either order:
    two updates commute, and two removals commute once the larger index
    is moved down by one. *)
Theorem edits_of_different_positions_commute
    (prev after1 after2 : list SchemaField) (i j : nat) (f g : SchemaField) :
  i < j →
  j < length prev →
  updateField i f prev = Some <$> after1 →
  updateField j g prev = Some <$> after2 →
  updateField j g after1 = updateField i f after2 ∧
  removeField i (removeField j prev) = removeField (j - 1) (removeField i prev).
Proof.
  intros Hij Hj Hwrite1 Hwrite2. unfold updateField in *.
  rewrite array_set_lt in Hwrite1 by lia. apply fmap_Some_eq in Hwrite1 as <-.
  rewrite array_set_lt in Hwrite2 by lia. apply fmap_Some_eq in Hwrite2 as <-.
  split.
  - rewrite !array_set_lt by (rewrite length_insert; lia).
    f_equal. apply list_insert_insert_ne. lia.
  - rewrite !removeField_delete. apply list_eq. intros k.
    rewrite !list_lookup_delete.
    repeat case_decide; f_equal; lia.
Qed.

Lemma edits_of_different_positions_commute_witness :
  updateField 2 zip_field (<[0 := string_leaf]> initialFields)
  = updateField 0 string_leaf (<[2 := zip_field]> initialFields) ∧
  removeField 0 (removeField 2 initialFields)
  = removeField 1 (removeField 0 initialFields).
Proof.
  apply (edits_of_different_positions_commute initialFields
           (<[0 := string_leaf]> initialFields) (<[2 := zip_field]> initialFields)
           0 2 string_leaf zip_field).
  - lia.
  - simpl. lia.
  - reflexivity.
  - reflexivity.
Defined.

(** X8. Adding a child and removing it again gives back the field when it
    had children, even none; on a field without [nested] the round trip
    leaves [nested] as the empty sequence, whatever the type of the
    field. *)
Theorem add_then_remove_child (field : SchemaField) (newId : string) :
  let last := length (default [] (nested field)) in
  (is_Some (nested field) →
   FieldRow.removeNestedField (FieldRow.addNestedField field newId) last = field) ∧
  (nested field = None →
   nested (FieldRow.removeNestedField (FieldRow.addNestedField field newId) last)
   = Some [] ∧
   FieldRow.removeNestedField (FieldRow.addNestedField field newId) last ≠ field).
Proof.
  intros last. unfold last. clear last.
  destruct field as [i n t e [cs|]]; simpl; split.
  - intros _. rewrite removeNestedField_delete. simpl.
    unfold spread. simpl. do 2 f_equal.
    rewrite (delete_middle cs []). apply app_nil_r.
  - discriminate.
  - by intros [? ?].
  - intros _. split; [done|]. discriminate.
Qed.

Lemma add_then_remove_child_witness :
  FieldRow.removeNestedField (FieldRow.addNestedField address_field "x") 2
  = address_field ∧
  nested (FieldRow.removeNestedField (FieldRow.addNestedField string_leaf "x") 0)
  = Some [].
Proof.
  split.
  - apply (proj1 (add_then_remove_child address_field "x")). by eexists.
  - apply (proj2 (add_then_remove_child string_leaf "x")). reflexivity.
Defined.

(** * Further properties of identifiers *)

Lemma length_substring (n m : nat) (s : string) :
  String.length (String.substring n m s) = m `min` (String.length s - n).
Proof.
  revert n m. induction s as [|c s IH]; intros [|n] [|m];
    cbn -[Nat.min Nat.sub]; rewrite ?IH; lia.
Qed.

Lemma substring_app_l (n m : nat) (s tail : string) :
  n + m ≤ String.length s →
  String.substring n m (s +:+ tail) = String.substring n m s.
Proof.
  revert n m. induction s as [|c s IH]; intros [|n] [|m]; simpl; intros Hlen;
    try done; try lia.
  - by destruct tail.
  - f_equal. apply IH. lia.
  - apply IH. lia.
  - apply IH. lia.
Qed.

(** X9. An identifier consists of the characters of the text of the draw
    from the third on, in their order, and of at most nine of them. So it
    has as many characters as that text has after its first two, but at
    most nine; it is empty when the text has at most two characters; and
    two draws whose texts agree on the first eleven characters get the same
    identifier. *)
Theorem generateId_keeps_nine_characters (rendering tail1 tail2 : string) :
  (∀ i, String.get i (generateId rendering)
        = if decide (i < 9) then String.get (i + 2) rendering else None) ∧
  String.length (generateId rendering) = 9 `min` (String.length rendering - 2) ∧
  (String.length rendering ≤ 2 → generateId rendering = EmptyString) ∧
  (String.length rendering = 11 →
   generateId (rendering +:+ tail1) = generateId (rendering +:+ tail2)).
Proof.
  unfold generateId. split; [|split; [apply length_substring|split]].
  - intros i. case_decide as Hi.
    + by apply String.substring_correct1.
    + apply String.substring_correct2. lia.
  - intros Hshort.
    pose proof (length_substring 2 9 rendering) as Hlen.
    destruct (String.substring 2 9 rendering); [done|].
    cbn -[Nat.min Nat.sub] in Hlen. lia.
  - intros Hlen. rewrite !substring_app_l by lia. done.
Qed.

Lemma generateId_keeps_nine_characters_witness :
  String.get 0 (generateId "0.4fzyo82mvyr") = String.get 2 "0.4fzyo82mvyr" ∧
  String.get 8 (generateId "0.4fzyo82mvyr") = String.get 10 "0.4fzyo82mvyr" ∧
  String.get 9 (generateId "0.4fzyo82mvyr") = None ∧
  generateId "0" = EmptyString ∧
  generateId ("0.4fzyo82mv" +:+ "yr") = generateId ("0.4fzyo82mv" +:+ "q7").
Proof.
  destruct (generateId_keeps_nine_characters "0.4fzyo82mvyr" "a" "b")
    as (Hget & _).
  destruct (generateId_keeps_nine_characters "0" "a" "b") as (_ & _ & Hshort & _).
  destruct (generateId_keeps_nine_characters "0.4fzyo82mv" "yr" "q7")
    as (_ & _ & _ & Hsame).
  split; [exact (Hget 0)|]. split; [exact (Hget 8)|]. split; [exact (Hget 9)|].
  split.
  - apply Hshort. simpl. lia.
  - apply Hsame. reflexivity.
Defined.

Section Origins.

Implicit Types (field : SchemaField) (fields : list SchemaField).

(** Whatever a row sends, it sends a field with its own identifier. *)
Lemma emits_keeps_id ok field s :
  emits ok field s → ∀ field', s = Update field' → id field' = id field.
Proof.
  intros [f value|f value|f checked|f
         |f rendering Hty Hok
         |f children index child updated parent' Hty Hnested Hlookup _ Hwrite
         |f children index child Hty Hnested Hlookup _];
    intros field' Heq; try discriminate; injection Heq as <-; try done.
  - apply onValueChange_id.
  - rewrite (updateNestedField_lt _ children) in Hwrite
      by eauto using lookup_lt_Some.
    by injection Hwrite as <-.
Qed.

(** A property of identifiers that every result of [generateId] has
    carries over from a field to whatever the row sends. *)
Lemma emits_ids_Forall (P : string → Prop) ok field s :
  (∀ rendering, P (generateId rendering)) →
  emits ok field s →
  ∀ field', s = Update field' →
            Forall P (field_ids field) → Forall P (field_ids field').
Proof.
  intros Hgen.
  induction 1 as [field value|field value|field checked|field
                 |field rendering Hty Hok
                 |field children index child updated parent' Hty Hnested Hlookup _ IH Hwrite
                 |field children index child Hty Hnested Hlookup _ _];
    intros field' Heq; try discriminate; injection Heq as <-.
  - by rewrite !field_ids_unfold.
  - rewrite !field_ids_unfold, onValueChange_id.
    destruct (decide (value = TNested)) as [->|Hne].
    + destruct (onValueChange_nested field) as [_ ->]. simpl.
      by destruct (nested field).
    + destruct (onValueChange_away field value Hne) as [_ ->]. simpl.
      rewrite !Forall_cons. intros [? _]. by split.
  - by rewrite !field_ids_unfold.
  - rewrite (field_ids_unfold (FieldRow.addNestedField _ _)). simpl.
    rewrite flat_map_app. simpl.
    rewrite app_comm_cons, <- field_ids_unfold, Forall_app.
    intros Hold. split; [done|]. by repeat constructor.
  - rewrite (updateNestedField_lt _ children) in Hwrite
      by eauto using lookup_lt_Some.
    injection Hwrite as <-. rewrite !field_ids_unfold, Hnested. simpl.
    destruct (flat_map_insert field_ids children index child updated Hlookup)
      as [-> ->].
    rewrite !Forall_cons, !Forall_app.
    intros (Hid & Hbefore & Hchild & Hafter). eauto using IH.
  - rewrite removeNestedField_delete, !field_ids_unfold, Hnested. simpl.
    rewrite !Forall_cons. intros [Hid Hchildren]. split; [done|].
    apply Forall_forall. intros x Hx. rewrite Forall_forall in Hchildren.
    apply Hchildren. eapply elem_of_sublist; [exact Hx|].
    apply flat_map_sublist, sublist_delete.
Qed.

End Origins.

(** X10. Every edit either appends one new field at the end, or replaces
    one top-level field by a field with the same identifier, or deletes one
    top-level field; all other top-level fields stay as they are and in
    their order. *)
Theorem edit_touches_one_position
    (accept : list SchemaField → string → Prop) (fields fields' : list SchemaField) :
  step accept fields fields' →
  (∃ rendering, fields' = fields ++ [newField (generateId rendering)]) ∨
  (∃ index field updated,
      fields !! index = Some field ∧ id updated = id field ∧
      fields' = <[index := updated]> fields) ∨
  (∃ index, index < length fields ∧ fields' = delete index fields).
Proof.
  intros [fs rendering _
         |fs index field updated fs' Hlookup Hemits Hwrite
         |fs index field Hlookup _].
  - left. by exists rendering.
  - right. left. exists index, field, updated. split; [done|].
    split; [by eapply emits_keeps_id|].
    unfold updateField in Hwrite.
    rewrite array_set_lt in Hwrite by eauto using lookup_lt_Some.
    by apply fmap_Some_eq in Hwrite.
  - right. right. exists index.
    split; [by eapply lookup_lt_Some|apply removeField_delete].
Qed.

Lemma edit_touches_one_position_witness :
  (∃ rendering,
      removeField 0 initialFields
      = initialFields ++ [newField (generateId rendering)]) ∨
  (∃ index field updated,
      initialFields !! index = Some field ∧ id updated = id field ∧
      removeField 0 initialFields = <[index := updated]> initialFields) ∨
  (∃ index, index < length initialFields ∧
            removeField 0 initialFields = delete index initialFields).
Proof.
  apply (edit_touches_one_position any_id).
  apply (step_remove any_id initialFields 0 string_leaf).
  - reflexivity.
  - apply emits_remove.
Defined.

(** X11. Identifiers are never edited or invented: a property that holds
    for the five initial identifiers and for every result of [generateId]
    holds for every identifier of every tree the editor can reach. *)
Theorem reachable_ids_come_from_generateId
    (P : string → Prop) (accept : list SchemaField → string → Prop)
    (fields : list SchemaField) :
  Forall P (tree_ids initialFields) →
  (∀ rendering, P (generateId rendering)) →
  reachable accept fields →
  Forall P (tree_ids fields).
Proof.
  intros Hinit Hgen. unfold reachable. revert fields. apply rtc_ind_r; [done|].
  intros fs fs' _ Hstep IH. unfold tree_ids in *.
  destruct Hstep as [fs rendering _
                    |fs index field updated fs' Hlookup Hemits Hwrite
                    |fs index field Hlookup _].
  - unfold addField. rewrite flat_map_app, Forall_app. split; [done|].
    simpl. by repeat constructor.
  - unfold updateField in Hwrite.
    rewrite array_set_lt in Hwrite by eauto using lookup_lt_Some.
    apply fmap_Some_eq in Hwrite as <-.
    destruct (flat_map_insert field_ids fs index field updated Hlookup)
      as [Hold ->].
    rewrite Hold, !Forall_app in IH. destruct IH as (Hbefore & Hfield & Hafter).
    rewrite !Forall_app. split; [done|]. split; [|done].
    by eapply (emits_ids_Forall P _ _ _ Hgen Hemits).
  - rewrite removeField_delete.
    apply Forall_forall. intros x Hx. rewrite Forall_forall in IH.
    apply IH. eapply elem_of_sublist; [exact Hx|].
    apply flat_map_sublist, sublist_delete.
Qed.

Lemma reachable_ids_come_from_generateId_witness :
  Forall (λ newId, String.length newId ≤ 9)
         (tree_ids (addField (generateId "0.4fzyo82mvyr") initialFields)).
Proof.
  apply (reachable_ids_come_from_generateId
           (λ newId, String.length newId ≤ 9) any_id).
  - repeat constructor.
  - intros rendering. unfold generateId. rewrite length_substring. lia.
  - apply rtc_once. by apply step_add.
Defined.

(** X12. Selecting a type twice is selecting it once, and selecting the
    type a field already has changes nothing when [nested] is defined
    exactly for type nested; on a nested field that lacks [nested] it
    sets the empty sequence. *)
Theorem reselecting_the_type (field : SchemaField) (value : FieldType) :
  FieldRow.onValueChange (FieldRow.onValueChange field value) value
  = FieldRow.onValueChange field value ∧
  ((is_Some (nested field) ↔ type field = TNested) →
   FieldRow.onValueChange field (type field) = field) ∧
  (type field = TNested → nested field = None →
   nested (FieldRow.onValueChange field (type field)) = Some []).
Proof.
  destruct field as [i n t e ns]. unfold FieldRow.onValueChange. simpl.
  split; [|split].
  - destruct value, ns; reflexivity.
  - intros Hiff. destruct t, ns as [cs|]; try reflexivity.
    + by destruct (proj1 Hiff (mk_is_Some _ _ eq_refl)).
    + by destruct (proj1 Hiff (mk_is_Some _ _ eq_refl)).
    + by destruct (proj2 Hiff eq_refl).
  - intros -> ->. reflexivity.
Qed.

Lemma reselecting_the_type_witness :
  FieldRow.onValueChange address_field TNested = address_field ∧
  nested (FieldRow.onValueChange (mkSchemaField "1" "a" TNested true None) TNested)
  = Some [].
Proof.
  split.
  - apply (proj1 (proj2 (reselecting_the_type address_field TNested))).
    split; [reflexivity|]. intros _. by eexists.
  - apply (proj2 (proj2 (reselecting_the_type
                           (mkSchemaField "1" "a" TNested true None) TNested)));
      reflexivity.
Defined.

(** * Properties of what is rendered *)

Section Rendering.

Implicit Types (field : SchemaField) (fields : list SchemaField) (level : nat).

Lemma row_keys_app (r1 r2 : list Rendered) :
  row_keys (r1 ++ r2) = row_keys r1 ++ row_keys r2.
Proof. apply omap_app. Qed.

Lemma row_paddings_app (r1 r2 : list Rendered) :
  row_paddings (r1 ++ r2) = row_paddings r1 ++ row_paddings r2.
Proof. apply omap_app. Qed.

Lemma FieldRow_render_unfold level field :
  FieldRow_render level field =
  RowControls (level * 20) (id field) (name field) (type field) (enabled field) ::
  if bool_decide (type field = TNested)
  then flat_map (FieldRow_render (level + 1)) (default [] (nested field))
         ++ [AddItem ((level + 1) * 20)]
  else [].
Proof. by destruct field as [i n t e [cs|]]. Qed.

Lemma field_depths_unfold level field :
  field_depths level field
  = level :: flat_map (field_depths (level + 1)) (default [] (nested field)).
Proof. by destruct field as [i n t e [cs|]]. Qed.

(** The lines of the children, given the lines of each child. *)
Lemma flat_map_rows {B} (project : list Rendered → list B)
    (render : SchemaField → list Rendered) (below : SchemaField → list B)
    (children : list SchemaField) :
  project [] = [] →
  (∀ r1 r2, project (r1 ++ r2) = project r1 ++ project r2) →
  Forall (λ child, project (render child) = below child) children →
  project (flat_map render children) = flat_map below children.
Proof.
  intros Hnil Happ. induction 1 as [|child children Hchild _ IH]; simpl.
  - done.
  - by rewrite Happ, Hchild, IH.
Qed.

Lemma well_formed_children field children :
  well_formed field → nested field = Some children →
  type field = TNested ∧ Forall (λ child, well_formed child) children.
Proof.
  intros [Hiff Hchildren]%well_formed_spec Hnested. split; [|by apply Hchildren].
  apply Hiff. by eexists.
Qed.

Lemma well_formed_leaf field :
  well_formed field → nested field = None → type field ≠ TNested.
Proof.
  intros [Hiff _]%well_formed_spec Hnested Hty.
  apply Hiff in Hty as [cs Hcs]. congruence.
Qed.

Lemma FieldRow_render_keys field :
  well_formed field →
  ∀ level, row_keys (FieldRow_render level field) = field_ids field.
Proof.
  induction field as [field IH] using SchemaField_tree_ind.
  intros Hwf level. rewrite FieldRow_render_unfold, field_ids_unfold.
  destruct (nested field) as [children|] eqn:Hnested; simpl.
  - destruct (well_formed_children _ _ Hwf Hnested) as [Hty Hchildren].
    rewrite bool_decide_eq_true_2 by done. f_equal.
    rewrite row_keys_app. simpl. rewrite app_nil_r.
    apply (flat_map_rows row_keys); [done|apply row_keys_app|].
    specialize (IH children eq_refl).
    apply Forall_forall. intros child Hin.
    rewrite Forall_forall in IH, Hchildren. by apply IH, Hchildren.
  - by rewrite bool_decide_eq_false_2 by by apply well_formed_leaf.
Qed.

Lemma FieldRow_render_paddings field :
  well_formed field →
  ∀ level,
    row_paddings (FieldRow_render level field)
    = (λ depth, depth * 20) <$> field_depths level field.
Proof.
  induction field as [field IH] using SchemaField_tree_ind.
  intros Hwf level. rewrite FieldRow_render_unfold, field_depths_unfold.
  destruct (nested field) as [children|] eqn:Hnested; simpl.
  - destruct (well_formed_children _ _ Hwf Hnested) as [Hty Hchildren].
    rewrite bool_decide_eq_true_2 by done. f_equal.
    rewrite row_paddings_app. simpl. rewrite app_nil_r.
    specialize (IH children eq_refl). clear Hnested.
    induction children as [|child children IHc]; [done|].
    apply Forall_cons in IH as [Hchild IH].
    apply Forall_cons in Hchildren as [Hwfc Hchildren].
    simpl. rewrite row_paddings_app, fmap_app, Hchild by done.
    by rewrite IHc.
  - by rewrite bool_decide_eq_false_2 by by apply well_formed_leaf.
Qed.

(** Rows are rendered for fields of the tree only, in the order of the
    tree. *)
Lemma FieldRow_render_keys_sublist field :
  ∀ level, row_keys (FieldRow_render level field) `sublist_of` field_ids field.
Proof.
  induction field as [field IH] using SchemaField_tree_ind.
  intros level. rewrite FieldRow_render_unfold, field_ids_unfold. simpl.
  apply sublist_skip. case_bool_decide; [|apply sublist_nil_l].
  rewrite row_keys_app. simpl. rewrite app_nil_r.
  destruct (nested field) as [children|]; simpl; [|done].
  specialize (IH children eq_refl).
  induction IH as [|child children Hchild _ IHc]; simpl; [done|].
  rewrite row_keys_app. by apply sublist_app.
Qed.

End Rendering.

(** X13. The rows on screen are rows of fields of the tree, in the order of
    the tree, each under the identifier of its field as React key; when
    [nested] is defined exactly on the fields of type nested, as in every
    tree the editor can reach, every field of the tree has its row. *)
Theorem every_field_has_its_row
    (accept : list SchemaField → string → Prop) (fields : list SchemaField) :
  row_keys (SchemaBuilder_render fields) `sublist_of` tree_ids fields ∧
  (Forall (λ field, well_formed field) fields →
   row_keys (SchemaBuilder_render fields) = tree_ids fields) ∧
  (reachable accept fields →
   row_keys (SchemaBuilder_render fields) = tree_ids fields).
Proof.
  assert (Forall (λ field, well_formed field) fields →
          row_keys (SchemaBuilder_render fields) = tree_ids fields) as Hall.
  { intros Hwf. unfold SchemaBuilder_render, tree_ids.
    rewrite row_keys_app. simpl. rewrite app_nil_r.
    apply (flat_map_rows row_keys); [done|apply row_keys_app|].
    eapply Forall_impl; [exact Hwf|]. intros field Hfield.
    by apply FieldRow_render_keys. }
  split; [|split; [done|]].
  - clear Hall. unfold SchemaBuilder_render, tree_ids.
    rewrite row_keys_app. simpl. rewrite app_nil_r.
    induction fields as [|field fields IH]; simpl; [apply sublist_nil_l|].
    rewrite row_keys_app. apply sublist_app; [|done].
    apply FieldRow_render_keys_sublist.
  - intros Hreach. by eapply Hall, reachable_well_formed.
Qed.

Lemma every_field_has_its_row_witness :
  row_keys (SchemaBuilder_render (removeField 0 initialFields))
  = tree_ids (removeField 0 initialFields).
Proof.
  apply (proj2 (proj2 (every_field_has_its_row any_id (removeField 0 initialFields)))).
  apply rtc_once. apply (step_remove any_id initialFields 0 string_leaf).
  - reflexivity.
  - apply emits_remove.
Defined.

(** X14. When [nested] is defined exactly on the fields of type nested, the
    row of each field is indented by twenty pixels per level of nesting. *)
Theorem rows_are_indented_by_depth (fields : list SchemaField) :
  Forall (λ field, well_formed field) fields →
  row_paddings (SchemaBuilder_render fields)
  = (λ depth, depth * 20) <$> flat_map (field_depths 0) fields.
Proof.
  intros Hwf. unfold SchemaBuilder_render.
  rewrite row_paddings_app. simpl. rewrite app_nil_r.
  induction Hwf as [|field fields Hfield _ IH]; simpl; [done|].
  rewrite row_paddings_app, fmap_app, IH.
  by rewrite FieldRow_render_paddings.
Qed.

Lemma rows_are_indented_by_depth_witness :
  row_paddings (SchemaBuilder_render initialFields)
  = (λ depth, depth * 20) <$> [0; 0; 0; 1; 1].
Proof.
  apply (rows_are_indented_by_depth initialFields). by repeat constructor.
Defined.

(** * Edits seen through the projection *)

(** X15. After [addField] the projection holds the empty string under the
    empty key, in place of whatever an earlier field without a name had
    left there, and is otherwise as before. An enabled nested field to
    which [addNestedField] adds a child is assigned the projection of its
    former children with the empty string under the empty key. *)
Theorem projection_after_adding
    (prev : list SchemaField) (field : SchemaField) (newId : string)
    (result : JsObject) :
  convertFieldsToSchema (addField newId prev)
  = <[EmptyString := JStr EmptyString]> (convertFieldsToSchema prev) ∧
  (enabled field = true → type field = TNested →
   forEach_body result (FieldRow.addNestedField field newId)
   = js_assign result (name field)
       (JObj (<[EmptyString := JStr EmptyString]>
                (convertFieldsToSchema (default [] (nested field)))))).
Proof.
  split.
  - unfold convertFieldsToSchema, addField. by rewrite fold_left_app.
  - intros Hen Hty. rewrite forEach_body_unfold.
    destruct field as [i n t e ns]; simpl in *. subst e t.
    rewrite projectedValue_nested by done. simpl.
    unfold convertFieldsToSchema. by rewrite fold_left_app.
Qed.

Lemma projection_after_adding_witness :
  forEach_body ∅ (FieldRow.addNestedField address_field "x")
  = js_assign ∅ "address"
      (JObj (<[EmptyString := JStr EmptyString]>
               (convertFieldsToSchema (default [] (nested address_field))))).
Proof.
  apply (proj2 (projection_after_adding [] address_field "x" ∅)); reflexivity.
Defined.

(** X16. Removing a field changes the projection under no key but the name
    of that field, and that name is no key any more unless another enabled
    field carries it. *)
Theorem projection_after_removeField
    (fields : list SchemaField) (index : nat) (field : SchemaField) :
  fields !! index = Some field →
  (∀ key, key ≠ name field →
          convertFieldsToSchema (removeField index fields) !! key
          = convertFieldsToSchema fields !! key) ∧
  (Forall (λ other, enabled other = true → name other ≠ name field)
          (removeField index fields) →
   convertFieldsToSchema (removeField index fields) !! name field = None).
Proof.
  intros Hlookup. split.
  - intros key Hne. rewrite removeField_delete, delete_take_drop.
    rewrite <- (take_drop_middle fields index field Hlookup) at 3.
    unfold convertFieldsToSchema. symmetry. by apply fold_lookup_skip.
  - intros Hothers. unfold convertFieldsToSchema.
    by rewrite fold_lookup_others.
Qed.

Lemma projection_after_removeField_witness :
  convertFieldsToSchema (removeField 1 initialFields) !! "class" = None.
Proof.
  apply (proj2 (projection_after_removeField initialFields 1
                  (mkSchemaField "2" "class" TNumber true None) eq_refl)).
  repeat constructor; discriminate.
Defined.

(** X17. Replacing a field changes the projection under no key but the name
    the field had and the name it has now. *)
Theorem projection_after_updateField
    (fields fields' : list SchemaField) (index : nat)
    (field updated : SchemaField) (key : string) :
  fields !! index = Some field →
  updateField index updated fields = Some <$> fields' →
  key ≠ name field → key ≠ name updated →
  convertFieldsToSchema fields' !! key = convertFieldsToSchema fields !! key.
Proof.
  intros Hlookup Hwrite Hold Hnew. unfold updateField in Hwrite.
  rewrite array_set_lt in Hwrite by eauto using lookup_lt_Some.
  apply fmap_Some_eq in Hwrite as <-.
  rewrite insert_take_drop by eauto using lookup_lt_Some.
  rewrite <- (take_drop_middle fields index field Hlookup) at 3.
  unfold convertFieldsToSchema.
  rewrite !fold_lookup_skip by done. done.
Qed.

Lemma projection_after_updateField_witness :
  convertFieldsToSchema
    (<[1 := FieldRow.onChange (mkSchemaField "2" "class" TNumber true None) "grade"]>
       initialFields) !! "address"
  = convertFieldsToSchema initialFields !! "address".
Proof.
  apply (projection_after_updateField initialFields _ 1
           (mkSchemaField "2" "class" TNumber true None)
           (FieldRow.onChange (mkSchemaField "2" "class" TNumber true None) "grade")).
  - reflexivity.
  - reflexivity.
  - discriminate.
  - discriminate.
Defined.

(** X18. Switching a field off changes the projection exactly as removing
    the field does, and, unlike a change of type, keeps the field's
    children: switching it on again gives back the field. *)
Theorem switching_off_projects_as_removing
    (fields fields' : list SchemaField) (index : nat) (field : SchemaField) :
  fields !! index = Some field →
  updateField index (FieldRow.onCheckedChange field false) fields
  = Some <$> fields' →
  convertFieldsToSchema fields' = convertFieldsToSchema (removeField index fields) ∧
  FieldRow.onCheckedChange (FieldRow.onCheckedChange field false) (enabled field)
  = field.
Proof.
  intros Hlookup Hwrite. split; [|by destruct field].
  unfold updateField in Hwrite.
  rewrite array_set_lt in Hwrite by eauto using lookup_lt_Some.
  apply fmap_Some_eq in Hwrite as <-.
  rewrite insert_take_drop by eauto using lookup_lt_Some.
  rewrite removeField_delete, delete_take_drop.
  unfold convertFieldsToSchema. apply fold_without_disabled.
  by constructor.
Qed.

Lemma switching_off_projects_as_removing_witness :
  convertFieldsToSchema
    (<[2 := FieldRow.onCheckedChange address_field false]> initialFields)
  = convertFieldsToSchema (removeField 2 initialFields) ∧
  FieldRow.onCheckedChange (FieldRow.onCheckedChange address_field false) true
  = address_field.
Proof.
  apply (switching_off_projects_as_removing initialFields _ 2 address_field);
    reflexivity.
Defined.
